(** * Proof encoding and discrete-log Sigma protocol of sigma-rust

    Shallow embedding of
    - [ergotree-interpreter/src/sigma_protocol/prover/prover_result.rs]
      ([ProofBytes], its conversions, its binary [SigmaSerializable] impl),
    - [ergo-lib/src/chain/transaction/input/prover_result/json.rs]
      (JSON encoding of [ProverResult], [FromStr], [proof_as_string_or_struct]),
    - [ergotree-interpreter/src/sigma_protocol/dlog_protocol.rs]
      ([interactive_prover]: [simulate], [first_message], [second_message],
      [compute_commitment]),
    - [ergo-p2p/src/protocol_version.rs] ([ProtocolVersion] and its codec),
    - [ergo-lib/src/wallet/box_selector/simple.rs] ([SimpleBoxSelector::select]). *)

From Stdlib Require Import ZArith NArith List Bool Lia.
From Stdlib Require Import Strings.String Strings.Ascii Strings.Byte.
Import ListNotations.

(** ** Rust [Result] *)

Inductive result (T E : Type) : Type :=
| Ok : T -> result T E
| Err : E -> result T E.
Arguments Ok {T E} _.
Arguments Err {T E} _.

(** ** Byte helpers *)

(** [n as u8]: the low 8 bits of [n]. *)
Definition u8 (n : N) : byte :=
  match Byte.of_N (n mod 256) with
  | Some b => b
  | None => x00
  end.

(** [len as u16]: the low 16 bits of a [usize] length. *)
Definition as_u16 (n : nat) : N := (N.of_nat n mod 65536)%N.

(** ** [ProofBytes] (prover_result.rs) *)

Module ProofBytes.
(** [pub enum ProofBytes { Empty, Some(Vec<u8>) }] *)
Inductive ProofBytes : Type :=
| Empty : ProofBytes
| Some : list byte -> ProofBytes.
End ProofBytes.

(** [impl Into<Vec<u8>> for ProofBytes] *)
Definition proof_bytes_into_vec (p : ProofBytes.ProofBytes) : list byte :=
  match p with
  | ProofBytes.Empty => []
  | ProofBytes.Some bytes => bytes
  end.

(** [impl From<Vec<u8>> for ProofBytes] *)
Definition proof_bytes_from (bytes : list byte) : ProofBytes.ProofBytes :=
  match bytes with
  | [] => ProofBytes.Empty
  | _ :: _ => ProofBytes.Some bytes
  end.

(** ** Binary codec *)

(** [SerializationError::Io(UnexpectedEof)] raised by the byte reader. *)
Inductive SerializationError : Type :=
| Io_UnexpectedEof : SerializationError.

(** Modelled from the spec: [SigmaByteWrite::put_u16] (its source is not
    part of the files at hand). Section 4.2 and 6 describe a fixed 16-bit
    unsigned length field; it is written here high byte first. *)
Definition put_u16 (v : N) : list byte := [u8 (v / 256); u8 v].

(** Modelled from the spec: [SigmaByteRead::get_u16], the reader matching
    [put_u16]; fewer than two remaining bytes is an end-of-stream error. *)
Definition get_u16 (r : list byte) : result (N * list byte) SerializationError :=
  match r with
  | hi :: lo :: rest => Ok (Byte.to_N hi * 256 + Byte.to_N lo, rest)%N
  | _ => Err Io_UnexpectedEof
  end.

(** [std::io::Read::read_exact] on the remaining stream [r]: fills a buffer
    of [n] bytes or fails with [UnexpectedEof]. *)
Fixpoint read_exact (n : nat) (r : list byte)
  : result (list byte * list byte) SerializationError :=
  match n, r with
  | O, _ => Ok ([], r)
  | S _, [] => Err Io_UnexpectedEof
  | S n', b :: r' =>
      match read_exact n' r' with
      | Ok (bs, rest) => Ok (b :: bs, rest)
      | Err e => Err e
      end
  end.

(** [ProofBytes::sigma_serialize] into a fresh writer. *)
Definition sigma_serialize (p : ProofBytes.ProofBytes) : list byte :=
  match p with
  | ProofBytes.Empty => put_u16 0
  | ProofBytes.Some bytes => put_u16 (as_u16 (List.length bytes)) ++ bytes
  end.

(** [ProofBytes::sigma_parse]: the parsed value and the unread stream. *)
Definition sigma_parse (r : list byte)
  : result (ProofBytes.ProofBytes * list byte) SerializationError :=
  match get_u16 r with
  | Err e => Err e
  | Ok (proof_len, r1) =>
      if (proof_len =? 0)%N then Ok (ProofBytes.Empty, r1)
      else
        match read_exact (N.to_nat proof_len) r1 with
        | Err e => Err e
        | Ok (bytes, r2) => Ok (ProofBytes.Some bytes, r2)
        end
  end.

(** ** Base16 (the [base16] crate: [encode_lower], [decode]) *)

(** [base16::DecodeError] *)
Inductive DecodeError : Type :=
| InvalidByte (index : nat) (byte : ascii)
| InvalidLength (length : nat).

Definition hex_digit_lower (n : N) : ascii :=
  ascii_of_N (if (n <? 10)%N then 48 + n else 87 + n)%N.

Definition encode_byte_lower (b : byte) : list ascii :=
  [hex_digit_lower (Byte.to_N b / 16); hex_digit_lower (Byte.to_N b mod 16)]%N.

(** [base16::encode_lower] *)
Definition encode_lower (bytes : list byte) : string :=
  string_of_list_ascii (flat_map encode_byte_lower bytes).

(** One hexadecimal digit, either case. *)
Definition decode_nibble (c : ascii) : option N :=
  let n := N_of_ascii c in
  if (48 <=? n)%N && (n <=? 57)%N then Some (n - 48)%N
  else if (97 <=? n)%N && (n <=? 102)%N then Some (n - 87)%N
  else if (65 <=? n)%N && (n <=? 70)%N then Some (n - 55)%N
  else None.

(** Decoding of an even-length digit sequence starting at index [i]. *)
Fixpoint decode_pairs (i : nat) (cs : list ascii) : result (list byte) DecodeError :=
  match cs with
  | [] => Ok []
  | [c] => Err (InvalidLength (S i))
  | hi :: lo :: rest =>
      match decode_nibble hi with
      | None => Err (InvalidByte i hi)
      | Some h =>
          match decode_nibble lo with
          | None => Err (InvalidByte (S i) lo)
          | Some l =>
              match decode_pairs (S (S i)) rest with
              | Err e => Err e
              | Ok bs => Ok (u8 (h * 16 + l)%N :: bs)
              end
          end
      end
  end.

(** [base16::decode]: odd lengths are refused before any digit is read. *)
Definition decode (s : string) : result (list byte) DecodeError :=
  let cs := list_ascii_of_string s in
  if Nat.odd (List.length cs) then Err (InvalidLength (List.length cs))
  else decode_pairs 0 cs.

(** [impl Into<String> for ProofBytes] *)
Definition proof_bytes_into_string (p : ProofBytes.ProofBytes) : string :=
  match p with
  | ProofBytes.Empty => ""%string
  | ProofBytes.Some bytes => encode_lower bytes
  end.

(** [impl TryFrom<String> for ProofBytes] *)
Definition proof_bytes_try_from (value : string)
  : result ProofBytes.ProofBytes DecodeError :=
  match decode value with
  | Ok bytes => Ok (proof_bytes_from bytes)
  | Err e => Err e
  end.

(** ** [ProverResult] and its JSON encoding (json.rs) *)

(** Values of the serde_json data model. *)
#[warnings="-register-all"]
Inductive json : Type :=
| JNull : json
| JBool : bool -> json
| JNumber : Z -> json
| JString : string -> json
| JArray : list json -> json
| JObject : list (string * json) -> json.

(** [ContextExtension]: an [IndexMap<u8, Constant>]; the constants are kept
    opaque, as their serialized bytes. *)
Record ContextExtension : Type := { ext_values : list (byte * list byte) }.

(** [ContextExtension::empty()] *)
Definition ContextExtension_empty : ContextExtension := {| ext_values := [] |}.

(** [pub struct ProverResult { proof, extension }] *)
Record ProverResult : Type := {
  proof : ProofBytes.ProofBytes;
  extension : ContextExtension
}.

(** Errors of the JSON deserializer. *)
Inductive de_error : Type :=
(** [de::Error::custom("error: {e}, while parsing proof bytes from string: {value:?}")] *)
| DeCustomProofString (e : DecodeError) (value : string)
(** [invalid type: <unexpected>, expected string or map] *)
| DeInvalidType (unexpected : json)
| DeMissingField (name : string)
| DeProofBytes (e : DecodeError)
| DeExtension (msg : string).

(** First entry of a JSON object under [name]. *)
Fixpoint lookup_field (name : string) (fields : list (string * json)) : option json :=
  match fields with
  | [] => None
  | (k, v) :: rest => if String.eqb k name then Some v else lookup_field name rest
  end.

(** [impl FromStr for ProverResult] *)
Definition prover_result_from_str (s : string) : result ProverResult DecodeError :=
  match decode s with
  | Err e => Err e
  | Ok proof_bytes =>
      Ok {| proof := proof_bytes_from proof_bytes;
            extension := ContextExtension_empty |}
  end.

Section ProverResultJson.

(** The JSON encoding of the extension ([ContextExtensionSerde]) is defined
    outside the files at hand and is opaque here. *)
Variable context_extension_to_json : ContextExtension -> json.
Variable context_extension_of_json : json -> result ContextExtension de_error.

(** [impl Serialize for ProverResult] *)
Definition prover_result_serialize (pr : ProverResult) : json :=
  JObject [("proofBytes"%string, JString (proof_bytes_into_string pr.(proof)));
           ("extension"%string, context_extension_to_json pr.(extension))].

(** Modelled from the spec: [Deserialize for ProverResult] on a map (the
    derived impl is not in the files at hand). Section 4.3: the object is
    read field by field from the canonical shape [{proofBytes, extension}],
    [proofBytes] through the textual form of [ProofBytes]. *)
Definition prover_result_deserialize_map (fields : list (string * json))
  : result ProverResult de_error :=
  match lookup_field "proofBytes" fields with
  | None => Err (DeMissingField "proofBytes")
  | Some (JString s) =>
      match proof_bytes_try_from s with
      | Err e => Err (DeProofBytes e)
      | Ok p =>
          match lookup_field "extension" fields with
          | None => Err (DeMissingField "extension")
          | Some ej =>
              match context_extension_of_json ej with
              | Err e => Err e
              | Ok ext => Ok {| proof := p; extension := ext |}
              end
          end
      end
  | Some other => Err (DeInvalidType other)
  end.

(** [proof_as_string_or_struct] at [T = ProverResult]: [deserialize_any]
    dispatches a string to [visit_str], a map to [visit_map]; every other
    shape reaches the visitor's default, an invalid-type error. *)
Definition proof_as_string_or_struct (j : json) : result ProverResult de_error :=
  match j with
  | JString value =>
      match prover_result_from_str value with
      | Ok r => Ok r
      | Err e => Err (DeCustomProofString e value)
      end
  | JObject fields => prover_result_deserialize_map fields
  | _ => Err (DeInvalidType j)
  end.

End ProverResultJson.

(** ** Discrete-log Sigma protocol (dlog_protocol.rs) *)

(** The group primitive [ergotree_ir::sigma_protocol::dlog_group] (k256
    points), consumed as an external capability: a group of order
    [group_order] written multiplicatively, with exponentiation by scalars.
    Its laws are assumed where they are used. *)
Class DlogGroup : Type := {
  EcPoint : Type;
  ec_mul : EcPoint -> EcPoint -> EcPoint;      (** [impl Mul for EcPoint] *)
  inverse : EcPoint -> EcPoint;                (** [dlog_group::inverse] *)
  identity : EcPoint;                          (** [dlog_group::identity] *)
  generator : EcPoint;                         (** [dlog_group::generator] *)
  exponentiate : EcPoint -> Z -> EcPoint;      (** [dlog_group::exponentiate] *)
  group_order : Z
}.

Section DlogProtocol.
Context {G : DlogGroup}.

(** [k256::Scalar] addition and multiplication, modulo the group order. *)
Definition scalar_add (a b : Z) : Z := (a + b) mod group_order.
Definition scalar_mul (a b : Z) : Z := (a * b) mod group_order.

(** Modelled from the spec: [impl From<Challenge> for Scalar] (not in the
    files at hand); the challenge, read as an integer, is range-reduced
    modulo the group order. *)
Definition challenge_into_scalar (challenge : Z) : Z := challenge mod group_order.

(** Modelled from the spec: [DlogProverInput::public_image], [h = g^w]. *)
Definition public_image (w : Z) : EcPoint := exponentiate generator w.

(** [simulate] is [todo!()]: every call panics ([None]). *)
Definition simulate (_public_input : EcPoint) (_challenge : Z) : option (EcPoint * Z) :=
  None.

(** [first_message]; [r] is the scalar drawn by
    [dlog_group::random_scalar_in_group_range()]. *)
Definition first_message (r : Z) : Z * EcPoint :=
  let g := generator in
  let a := exponentiate g r in
  (r, a).

(** [second_message(private_input, rnd, challenge)], [private_input.w = w];
    the result is [SecondDlogProverMessage { z }]. *)
Definition second_message (w : Z) (rnd : Z) (challenge : Z) : Z :=
  let e := challenge_into_scalar challenge in
  let ew := scalar_mul e w in
  let z := scalar_add rnd ew in
  z.

(** [compute_commitment(proposition, challenge, second_message)],
    [proposition.h = h], [second_message.z = z]: [g^z * (h^e)^-1]. *)
Definition compute_commitment (h : EcPoint) (challenge : Z) (z : Z) : EcPoint :=
  let g := generator in
  let e := challenge_into_scalar challenge in
  let g_z := exponentiate g z in
  let h_e := exponentiate h e in
  ec_mul g_z (inverse h_e).

End DlogProtocol.

(** An instance of the group primitive: the group of order 2 (booleans
    under exclusive or, generated by [true]). *)
#[export] Instance Z2Group : DlogGroup := {|
  EcPoint := bool;
  ec_mul := xorb;
  inverse := fun p => p;
  identity := false;
  generator := true;
  exponentiate := fun p s => if Z.odd s then p else false;
  group_order := 2
|}.

(** ** P2P protocol version (ergo-p2p/src/protocol_version.rs) *)

(** [pub struct ProtocolVersion(pub u8, pub u8, pub u8)] *)
Record ProtocolVersion : Type := {
  pv_0 : byte;
  pv_1 : byte;
  pv_2 : byte
}.

(** [ProtocolVersion::new] *)
Definition ProtocolVersion_new (first_digit second_digit third_digit : byte)
  : ProtocolVersion :=
  {| pv_0 := first_digit; pv_1 := second_digit; pv_2 := third_digit |}.

(** [ProtocolVersion::INITIAL] *)
Definition ProtocolVersion_INITIAL : ProtocolVersion := ProtocolVersion_new x00 x00 x01.

(** [ScorexParsingError::Io(UnexpectedEof)] *)
Inductive ScorexParsingError : Type :=
| ScorexIo_UnexpectedEof : ScorexParsingError.

(** [WriteSigmaVlqExt::put_u8] and [ReadSigmaVlqExt::get_u8] (sigma-ser, not
    in the files at hand): a [u8] is written and read as the byte itself. *)
Definition put_u8 (v : byte) : list byte := [v].

Definition get_u8 (r : list byte) : result (byte * list byte) ScorexParsingError :=
  match r with
  | b :: rest => Ok (b, rest)
  | [] => Err ScorexIo_UnexpectedEof
  end.

(** [ProtocolVersion::scorex_serialize] into a fresh writer. *)
Definition scorex_serialize (v : ProtocolVersion) : list byte :=
  put_u8 v.(pv_0) ++ put_u8 v.(pv_1) ++ put_u8 v.(pv_2).

(** [ProtocolVersion::scorex_parse]: the three [get_u8] calls are the
    arguments of [ProtocolVersion::new], evaluated left to right. *)
Definition scorex_parse (r : list byte)
  : result (ProtocolVersion * list byte) ScorexParsingError :=
  match get_u8 r with
  | Err e => Err e
  | Ok (a, r1) =>
      match get_u8 r1 with
      | Err e => Err e
      | Ok (b, r2) =>
          match get_u8 r2 with
          | Err e => Err e
          | Ok (c, r3) => Ok (ProtocolVersion_new a b c, r3)
          end
      end
  end.

(** ** Naive box selector (ergo-lib/src/wallet/box_selector/simple.rs) *)

(** A call that returns or panics ([unwrap] on [None], [u64] underflow). *)
Inductive outcome (A : Type) : Type :=
| Returns : A -> outcome A
| Panics : outcome A.
Arguments Returns {A} _.
Arguments Panics {A}.

(** [Token { token_id, amount }]; a [TokenId] is kept as a number. *)
Record Token : Type := {
  token_id : N;
  amount : Z
}.

(** [ErgoBoxAssetsData { value, tokens }] *)
Record ErgoBoxAssetsData : Type := {
  value : Z;
  tokens : list Token
}.

(** The trait [ErgoBoxAssets]: [value()] (as [i64]) and [tokens()]. *)
Class ErgoBoxAssets (T : Type) : Type := {
  box_value : T -> Z;
  box_tokens : T -> list Token
}.

#[export] Instance ErgoBoxAssetsData_assets : ErgoBoxAssets ErgoBoxAssetsData := {|
  box_value := value;
  box_tokens := tokens
|}.

(** [BoxSelection<T> { boxes, change_boxes }] *)
Record BoxSelection (T : Type) : Type := {
  boxes : list T;
  change_boxes : list ErgoBoxAssetsData
}.
Arguments boxes {T} _.
Arguments change_boxes {T} _.

(** [BoxSelectorError] *)
Inductive BoxSelectorError : Type :=
| NotEnoughCoins (missing : Z)
| NotEnoughTokens (token_id : N) (missing_amount : Z)
| BoxValueError.

(** A [HashMap<TokenId, V>] as an association list without repeated keys.
    Its order stands for the map's iteration order, which the std
    [HashMap] leaves unspecified; no statement below depends on it. *)
Fixpoint map_get {V : Type} (k : N) (m : list (N * V)) : option V :=
  match m with
  | [] => None
  | (k', v) :: m' => if (k =? k')%N then Some v else map_get k m'
  end.

(** [HashMap::insert]: replaces the value of a present key. *)
Fixpoint map_insert {V : Type} (k : N) (v : V) (m : list (N * V)) : list (N * V) :=
  match m with
  | [] => [(k, v)]
  | (k', v') :: m' =>
      if (k =? k')%N then (k, v) :: m' else (k', v') :: map_insert k v m'
  end.

(** [Iterator::collect] into a [HashMap]: a later pair overrides an earlier one. *)
Definition map_collect {V : Type} (kvs : list (N * V)) : list (N * V) :=
  fold_left (fun m kv => map_insert (fst kv) (snd kv) m) kvs [].

(** [map.iter().find(|t| p(t.1))] *)
Fixpoint map_find {V : Type} (p : V -> bool) (m : list (N * V)) : option (N * V) :=
  match m with
  | [] => None
  | (k, v) :: m' => if p v then Some (k, v) else map_find p m'
  end.

Definition is_empty {A : Type} (l : list A) : bool :=
  match l with [] => true | _ => false end.

Definition sum_values {T : Type} `{ErgoBoxAssets T} (bs : list T) : Z :=
  fold_right (fun b acc => (box_value b + acc)%Z) 0%Z bs.

Section SimpleBoxSelector.
Context {T : Type} `{ErgoBoxAssets T}.
Local Open Scope Z_scope.

(** [sum_tokens] (chain::ergo_box, not in the files at hand), the
    conversion [BoxValue::try_from] of the change value and
    [TokenAmount::try_from] are external and kept opaque. *)
Variable sum_tokens : list T -> list (N * Z).
Variable box_value_try_from : Z -> option Z.
Variable token_amount_try_from : Z -> option Z.

(** The body of [inputs.into_iter().for_each(|b| ...)]: the state is
    [(selected_inputs, unmet_target_balance, unmet_target_tokens)]. *)
Definition select_input (st : list T * Z * list (N * Z)) (b : T)
  : list T * Z * list (N * Z) :=
  let '(selected_inputs, unmet_target_balance, unmet_target_tokens) := st in
  if 0 <? unmet_target_balance then
    let b_value := box_value b in
    let unmet_target_tokens' :=
      fold_left
        (fun m t =>
           let unmet_token_amount :=
             match map_get t.(token_id) m with Some v => v | None => 0 end in
           if 0 <? unmet_token_amount
           then map_insert t.(token_id) (unmet_token_amount - t.(amount)) m
           else m)
        (box_tokens b) unmet_target_tokens in
    (selected_inputs ++ [b], unmet_target_balance - b_value, unmet_target_tokens')
  else st.

(** One step of [target_tokens.iter().for_each(...)] on [change_tokens];
    [None] is a panic ([unwrap] of a missing entry, or [u64] underflow). *)
Definition change_token_step (acc : option (list (N * Z))) (t : Token)
  : option (list (N * Z)) :=
  match acc with
  | None => None
  | Some change_tokens =>
      match map_get t.(token_id) change_tokens with
      | None => None
      | Some selected_boxes_t_amt =>
          if selected_boxes_t_amt <? t.(amount) then None
          else Some (map_insert t.(token_id) (selected_boxes_t_amt - t.(amount)) change_tokens)
      end
  end.

(** [change_tokens.iter().map(|t| Token { .., amount: TokenAmount::try_from(t.1).unwrap() })] *)
Fixpoint tokens_of_map (m : list (N * Z)) : option (list Token) :=
  match m with
  | [] => Some []
  | (id, amt) :: m' =>
      match token_amount_try_from amt, tokens_of_map m' with
      | Some a, Some ts => Some ({| token_id := id; amount := a |} :: ts)
      | _, _ => None
      end
  end.

(** [SimpleBoxSelector::select] *)
Definition select (inputs : list T) (target_balance : Z) (target_tokens : list Token)
  : outcome (result (BoxSelection T) BoxSelectorError) :=
  let '(selected_inputs, unmet_target_balance, unmet_target_tokens) :=
    fold_left select_input inputs
      ([], target_balance,
       map_collect (map (fun t => (t.(token_id), t.(amount))) target_tokens)) in
  if 0 <? unmet_target_balance then
    Returns (Err (NotEnoughCoins (Z.abs unmet_target_balance)))
  else
    match (if negb (is_empty target_tokens)
           then map_find (fun v => 0 <? v) unmet_target_tokens else None) with
    | Some (id, v) => Returns (Err (NotEnoughTokens id (Z.abs v)))
    | None =>
        if (unmet_target_balance =? 0) && is_empty unmet_target_tokens then
          Returns (Ok {| boxes := selected_inputs; change_boxes := [] |})
        else
          match box_value_try_from (Z.abs unmet_target_balance) with
          | None => Returns (Err BoxValueError)
          | Some change_value =>
              let change_tokens := sum_tokens selected_inputs in
              let change_tokens :=
                if negb (is_empty unmet_target_tokens)
                then fold_left change_token_step target_tokens (Some change_tokens)
                else Some change_tokens in
              match change_tokens with
              | None => Panics
              | Some ct =>
                  match tokens_of_map ct with
                  | None => Panics
                  | Some toks =>
                      Returns (Ok {| boxes := selected_inputs;
                                     change_boxes := [{| value := change_value;
                                                         tokens := toks |}] |})
                  end
              end
          end
    end.

End SimpleBoxSelector.

(** The inputs the loop of [select] takes while [u] is still unmet: the
    shortest prefix of [l] whose values cover [u]. *)
Fixpoint taken {T : Type} `{ErgoBoxAssets T} (u : Z) (l : list T) : list T :=
  match l with
  | [] => []
  | b :: bs => if (0 <? u)%Z then b :: taken (u - box_value b)%Z bs else []
  end.

(** ** Properties *)

Section DlogProtocolProofs.
Context {G : DlogGroup}.

Hypothesis mul_assoc :
  forall a b c : EcPoint, ec_mul (ec_mul a b) c = ec_mul a (ec_mul b c).
Hypothesis mul_inverse_r : forall a : EcPoint, ec_mul a (inverse a) = identity.
Hypothesis mul_identity_r : forall a : EcPoint, ec_mul a identity = a.
Hypothesis exponentiate_add : forall (p : EcPoint) x y,
  exponentiate p (x + y) = ec_mul (exponentiate p x) (exponentiate p y).
Hypothesis exponentiate_mod :
  forall (p : EcPoint) x, exponentiate p (x mod group_order) = exponentiate p x.
Hypothesis exponentiate_exponentiate : forall (p : EcPoint) x y,
  exponentiate (exponentiate p x) y = exponentiate p (x * y).

(** C1. Completeness: for every secret [w], every randomness [r] drawn by
    [first_message] and every challenge [e] (all integers, so [e = 0] and
    the largest challenge included), [compute_commitment(g^w, e, z)] with
    [z = second_message(w, r, e)] is the commitment [a] of [first_message]. *)
Theorem dlog_completeness : forall w r challenge,
  let (r', a) := first_message r in
  compute_commitment (public_image w) challenge (second_message w r' challenge) = a.
Proof.
  intros w r challenge. cbn.
  unfold compute_commitment, second_message, public_image, scalar_add, scalar_mul,
    challenge_into_scalar.
  rewrite exponentiate_mod, exponentiate_add, exponentiate_mod,
    exponentiate_exponentiate, Z.mul_comm, mul_assoc, mul_inverse_r.
  apply mul_identity_r.
Qed.

End DlogProtocolProofs.

(** The laws of the group primitive hold in [Z2Group]. *)
Lemma Z2Group_mul_assoc :
  forall a b c : @EcPoint Z2Group, ec_mul (ec_mul a b) c = ec_mul a (ec_mul b c).
Proof. intros [] [] []; reflexivity. Qed.

Lemma Z2Group_mul_inverse_r : forall a : @EcPoint Z2Group, ec_mul a (inverse a) = identity.
Proof. intros []; reflexivity. Qed.

Lemma Z2Group_mul_identity_r : forall a : @EcPoint Z2Group, ec_mul a identity = a.
Proof. intros []; reflexivity. Qed.

Lemma Z2Group_exponentiate_add : forall (p : @EcPoint Z2Group) x y,
  exponentiate p (x + y) = ec_mul (exponentiate p x) (exponentiate p y).
Proof.
  intros p x y. cbn. rewrite Z.odd_add.
  destruct (Z.odd x), (Z.odd y), p; reflexivity.
Qed.

Lemma Z2Group_exponentiate_mod : forall (p : @EcPoint Z2Group) x,
  exponentiate p (x mod group_order) = exponentiate p x.
Proof.
  intros p x. cbn. rewrite Zmod_odd.
  destruct (Z.odd x); reflexivity.
Qed.

Lemma Z2Group_exponentiate_exponentiate : forall (p : @EcPoint Z2Group) x y,
  exponentiate (exponentiate p x) y = exponentiate p (x * y).
Proof.
  intros p x y. cbn. rewrite Z.odd_mul.
  destruct (Z.odd x), (Z.odd y); reflexivity.
Qed.

(** Completeness in [Z2Group] for the secret 1, randomness 1 and challenge 5. *)
Lemma dlog_completeness_witness :
  let (r', a) := @first_message Z2Group 1 in
  compute_commitment (public_image 1) 5 (second_message 1 r' 5) = a.
Proof.
  exact (@dlog_completeness Z2Group Z2Group_mul_assoc Z2Group_mul_inverse_r
           Z2Group_mul_identity_r Z2Group_exponentiate_add Z2Group_exponentiate_mod
           Z2Group_exponentiate_exponentiate 1 1 5).
Defined.

(** C8 (counterexample). [simulate] returns no transcript: in [Z2Group],
    with public image [true] and challenge 1, the call panics. *)
Lemma simulate_panics_example : @simulate Z2Group true 1 = None.
Proof. reflexivity. Qed.

(** C8 (amended). [simulate] is the unimplemented stub [todo!()]: for every
    group, public image and challenge the call panics and yields no pair
    [(a, z)]. *)
Theorem simulate_is_stub :
  forall (G : DlogGroup) (h : EcPoint) (challenge : Z), simulate h challenge = None.
Proof. reflexivity. Qed.

(** C9. [Into<Vec<u8>>] is a left inverse of [From<Vec<u8>>]: converting
    [ProofBytes::from(bs)] back to bytes yields [bs]. *)
Theorem proof_bytes_into_vec_from : forall bs,
  proof_bytes_into_vec (proof_bytes_from bs) = bs.
Proof. intros [|b bs]; reflexivity. Qed.

Lemma proof_bytes_from_not_some_nil : forall bs,
  proof_bytes_from bs <> ProofBytes.Some [].
Proof. intros [|b bs]; discriminate. Qed.

(** [read_exact] takes exactly [n] bytes or fails. *)
Lemma read_exact_spec : forall n r,
  read_exact n r =
  if (List.length r <? n)%nat then Err Io_UnexpectedEof
  else Ok (firstn n r, skipn n r).
Proof.
  induction n as [|n IH]; intros [|b r]; try reflexivity.
  cbn [read_exact List.length firstn skipn]. rewrite IH.
  change (S (List.length r) <? S n)%nat with (List.length r <? n)%nat.
  destruct (List.length r <? n)%nat; reflexivity.
Qed.

(** C7. Binary parsing of [ProofBytes]: a stream of fewer than two bytes
    has no length prefix and is an error; after a 16-bit prefix [n], [n = 0]
    gives [Empty]; otherwise exactly [n] further bytes are taken into [Some],
    and a stream holding fewer than [n] of them is an error. *)
Theorem sigma_parse_length_prefix :
  (forall r, (List.length r < 2)%nat -> sigma_parse r = Err Io_UnexpectedEof) /\
  (forall hi lo rest,
     let n := (Byte.to_N hi * 256 + Byte.to_N lo)%N in
     sigma_parse (hi :: lo :: rest) =
       if (n =? 0)%N then Ok (ProofBytes.Empty, rest)
       else if (List.length rest <? N.to_nat n)%nat then Err Io_UnexpectedEof
       else Ok (ProofBytes.Some (firstn (N.to_nat n) rest), skipn (N.to_nat n) rest)).
Proof.
  split.
  - intros [|b [|b' r]] H; cbn in H; try reflexivity; lia.
  - intros hi lo rest n. unfold sigma_parse. cbn [get_u16]. fold n.
    destruct (n =? 0)%N; [reflexivity|].
    rewrite read_exact_spec.
    destruct (List.length rest <? N.to_nat n)%nat; reflexivity.
Qed.

(** C5. Normalization: [ProofBytes::from] maps the empty vector to [Empty],
    and none of the construction paths ([From<Vec<u8>>], [TryFrom<String>],
    [sigma_parse]) ever produces [Some(vec![])]. *)
Theorem proof_bytes_normalized :
  proof_bytes_from [] = ProofBytes.Empty /\
  (forall bs, proof_bytes_from bs <> ProofBytes.Some []) /\
  (forall s, proof_bytes_try_from s <> Ok (ProofBytes.Some [])) /\
  (forall r rest, sigma_parse r <> Ok (ProofBytes.Some [], rest)).
Proof.
  split; [reflexivity|]. split; [exact proof_bytes_from_not_some_nil|]. split.
  - intros s. unfold proof_bytes_try_from.
    destruct (decode s) as [bs|e]; [|discriminate].
    intros H. injection H. apply proof_bytes_from_not_some_nil.
  - intros [|hi [|lo r]] rest; try discriminate.
    destruct sigma_parse_length_prefix as [_ Hp]. rewrite Hp. cbv zeta.
    destruct (Byte.to_N hi * 256 + Byte.to_N lo =? 0)%N eqn:E; [discriminate|].
    destruct (List.length r <? _)%nat eqn:L; [discriminate|].
    intros H. injection H as H _.
    apply N.eqb_neq in E. apply Nat.ltb_ge in L.
    apply (f_equal (@List.length byte)) in H. rewrite length_firstn in H.
    cbn in H. lia.
Qed.

(** ** Binary round trip *)

Lemma u8_to_N : forall n, Byte.to_N (u8 n) = (n mod 256)%N.
Proof.
  intros n. unfold u8.
  destruct (Byte.of_N (n mod 256)) as [b|] eqn:E.
  - apply Byte.to_of_N in E. exact E.
  - apply Byte.of_N_None_iff in E.
    pose proof (N.mod_lt n 256 ltac:(discriminate)). lia.
Qed.

Lemma get_u16_put_u16 : forall v rest, (v < 65536)%N ->
  get_u16 (put_u16 v ++ rest) = Ok (v, rest).
Proof.
  intros v rest Hv. cbn [put_u16 app get_u16]. rewrite !u8_to_N.
  rewrite (N.mod_small (v / 256) 256)
    by (apply N.Div0.div_lt_upper_bound; lia).
  pose proof (N.div_mod v 256 ltac:(discriminate)).
  f_equal. f_equal. lia.
Qed.

Lemma read_exact_app : forall bs rest,
  read_exact (List.length bs) (bs ++ rest) = Ok (bs, rest).
Proof.
  induction bs as [|b bs IH]; intros rest; [reflexivity|].
  cbn. rewrite IH. reflexivity.
Qed.

(** C2 (counterexample). [Some(vec![])] does not survive the binary round
    trip: it is written as the zero prefix and read back as [Empty]. *)
Lemma proof_bytes_binary_roundtrip_some_nil :
  sigma_parse (sigma_serialize (ProofBytes.Some [])) = Ok (ProofBytes.Empty, []) /\
  ProofBytes.Empty <> ProofBytes.Some [].
Proof. split; [reflexivity | discriminate]. Qed.

(** C2 (amended). [sigma_serialize(Empty)] is the two bytes [00 00], and
    every [Empty] or [Some(bytes)] with 1 to 65535 bytes is read back by
    [sigma_parse] from its serialization, the bytes after it left unread. *)
Theorem proof_bytes_binary_roundtrip (p : ProofBytes.ProofBytes) (rest : list byte)
  (Hp : p = ProofBytes.Empty \/
        exists bs, p = ProofBytes.Some bs /\ (1 <= N.of_nat (List.length bs) <= 65535)%N) :
  sigma_serialize ProofBytes.Empty = [x00; x00] /\
  sigma_parse (sigma_serialize p ++ rest) = Ok (p, rest).
Proof.
  split; [reflexivity|].
  destruct Hp as [-> | [bs [-> Hlen]]]; [reflexivity|].
  unfold sigma_serialize, sigma_parse.
  assert (Hu : as_u16 (List.length bs) = N.of_nat (List.length bs))
    by (unfold as_u16; apply N.mod_small; lia).
  rewrite Hu, <- app_assoc, get_u16_put_u16 by lia.
  destruct (N.of_nat (List.length bs) =? 0)%N eqn:E; [apply N.eqb_eq in E; lia|].
  rewrite Nat2N.id, read_exact_app. reflexivity.
Qed.

Lemma proof_bytes_binary_roundtrip_witness :
  (1 <= N.of_nat (List.length [x01; x02]) <= 65535)%N /\
  sigma_serialize ProofBytes.Empty = [x00; x00] /\
  sigma_parse (sigma_serialize (ProofBytes.Some [x01; x02]) ++ [x07]) =
    Ok (ProofBytes.Some [x01; x02], [x07]).
Proof.
  split; [cbn; lia|].
  apply (proof_bytes_binary_roundtrip (ProofBytes.Some [x01; x02]) [x07]).
  right. exists [x01; x02]. split; [reflexivity | cbn; lia].
Defined.

(** C3. A proof of 65536 bytes: [bytes.len() as u16] wraps to 0, so the
    serializer writes the prefix [00 00] followed by the whole payload, with
    no error, and the parser reads the result back as [Empty]. *)
Theorem proof_bytes_serialize_oversized :
  let bytes := repeat x01 (N.to_nat 65536) in
  sigma_serialize (ProofBytes.Some bytes) = [x00; x00] ++ bytes /\
  sigma_parse (sigma_serialize (ProofBytes.Some bytes)) = Ok (ProofBytes.Empty, bytes).
Proof.
  intros bytes.
  assert (H : sigma_serialize (ProofBytes.Some bytes) = [x00; x00] ++ bytes).
  { unfold sigma_serialize, bytes. rewrite repeat_length.
    unfold as_u16. rewrite N2Nat.id. reflexivity. }
  split; [exact H|]. rewrite H. reflexivity.
Qed.

(** ** Textual round trip *)

Lemma decode_pairs_encode_byte : forall b i rest,
  decode_pairs i (encode_byte_lower b ++ rest) =
  match decode_pairs (S (S i)) rest with
  | Err e => Err e
  | Ok bs => Ok (b :: bs)
  end.
Proof. intros b i rest. destruct b; reflexivity. Qed.

Lemma decode_pairs_encode : forall bs i,
  decode_pairs i (flat_map encode_byte_lower bs) = Ok bs.
Proof.
  induction bs as [|b bs IH]; intros i; [reflexivity|].
  cbn [flat_map]. rewrite decode_pairs_encode_byte, IH. reflexivity.
Qed.

Lemma decode_encode_lower : forall bs, decode (encode_lower bs) = Ok bs.
Proof.
  intros bs. unfold decode, encode_lower.
  rewrite list_ascii_of_string_of_list_ascii.
  assert (H : List.length (flat_map encode_byte_lower bs) = 2 * List.length bs).
  { induction bs as [|b bs IH]; [reflexivity|]. cbn. rewrite IH. lia. }
  rewrite H, Nat.odd_mul. apply decode_pairs_encode.
Qed.

(** C6 (counterexample). [Some(vec![])] is written as the empty string,
    which is read back as [Empty]. *)
Lemma proof_bytes_text_roundtrip_some_nil :
  proof_bytes_try_from (proof_bytes_into_string (ProofBytes.Some [])) =
    Ok ProofBytes.Empty /\
  ProofBytes.Empty <> ProofBytes.Some [].
Proof. split; [reflexivity | discriminate]. Qed.

(** Every digit accepted by [decode_pairs] is a hexadecimal digit. *)
Lemma decode_pairs_ok_digits : forall n cs i bs,
  (List.length cs <= n)%nat -> decode_pairs i cs = Ok bs ->
  Forall (fun c => decode_nibble c <> None) cs /\ List.length cs = (2 * List.length bs)%nat.
Proof.
  induction n as [|n IH]; intros cs i bs Hlen Hd.
  - destruct cs; [|cbn in Hlen; lia]. injection Hd as <-. auto.
  - destruct cs as [|c1 [|c2 cs]]; [injection Hd as <-; auto | discriminate|].
    cbn [decode_pairs] in Hd.
    destruct (decode_nibble c1) as [h|] eqn:E1; [|discriminate].
    destruct (decode_nibble c2) as [l|] eqn:E2; [|discriminate].
    destruct (decode_pairs (S (S i)) cs) as [bs'|e] eqn:E3; [|discriminate].
    injection Hd as <-.
    destruct (IH cs (S (S i)) bs') as [Hf Hl]; [cbn in Hlen; lia | exact E3|].
    split.
    + constructor; [congruence|]. constructor; [congruence|exact Hf].
    + cbn. lia.
Qed.

(** A string that [decode] accepts has even length and only hexadecimal
    digits; the empty byte vector comes only from the empty string. *)
Lemma decode_ok_inv : forall s bs,
  decode s = Ok bs ->
  Nat.odd (List.length (list_ascii_of_string s)) = false /\
  Forall (fun c => decode_nibble c <> None) (list_ascii_of_string s) /\
  (bs = [] -> s = ""%string).
Proof.
  intros s bs Hd. unfold decode in Hd.
  destruct (Nat.odd (List.length (list_ascii_of_string s))) eqn:E; [discriminate|].
  destruct (decode_pairs_ok_digits _ _ 0 bs (le_n _) Hd) as [Hf Hl].
  split; [reflexivity|]. split; [exact Hf|].
  intros ->. destruct s as [|c s]; [reflexivity|]. cbn in Hl. lia.
Qed.

(** C6 (amended). [Empty] is written as [""], [Some([01,02,03])] as
    ["010203"]; [""] is read as [Ok(Empty)]; every string of odd length or
    holding a non-hexadecimal character, such as ["zz"], fails with a decode
    error; only [""] is read as [Empty], so malformed hex never becomes
    [Empty]; and every value other than [Some(vec![])] is read back from its
    text. *)
Theorem proof_bytes_text_roundtrip (p : ProofBytes.ProofBytes)
  (Hp : p <> ProofBytes.Some []) :
  proof_bytes_into_string ProofBytes.Empty = ""%string /\
  proof_bytes_into_string (ProofBytes.Some [x01; x02; x03]) = "010203"%string /\
  proof_bytes_try_from "" = Ok ProofBytes.Empty /\
  (exists e, proof_bytes_try_from "zz" = Err e) /\
  (forall s,
     Nat.odd (List.length (list_ascii_of_string s)) = true \/
     (exists c, In c (list_ascii_of_string s) /\ decode_nibble c = None) ->
     exists e, proof_bytes_try_from s = Err e) /\
  (forall s, proof_bytes_try_from s = Ok ProofBytes.Empty -> s = ""%string) /\
  proof_bytes_try_from (proof_bytes_into_string p) = Ok p.
Proof.
  split; [reflexivity|]. split; [reflexivity|]. split; [reflexivity|].
  split; [eexists; reflexivity|].
  split.
  { intros s Hbad. unfold proof_bytes_try_from.
    destruct (decode s) as [bs|e] eqn:Hd; [|eexists; reflexivity].
    exfalso. destruct (decode_ok_inv s bs Hd) as [Hodd [Hf _]].
    destruct Hbad as [Ho | [c [Hin Hc]]]; [congruence|].
    rewrite Forall_forall in Hf. exact (Hf c Hin Hc). }
  split.
  { intros s He. unfold proof_bytes_try_from in He.
    destruct (decode s) as [bs|e] eqn:Hd; [|discriminate].
    injection He as He. destruct (decode_ok_inv s bs Hd) as [_ [_ Hnil]].
    apply Hnil. destruct bs; [reflexivity | discriminate]. }
  destruct p as [|[|b bs]]; [reflexivity | congruence|].
  unfold proof_bytes_try_from, proof_bytes_into_string.
  rewrite decode_encode_lower. reflexivity.
Qed.

Lemma proof_bytes_text_roundtrip_witness :
  ProofBytes.Some [xab] <> ProofBytes.Some [] /\
  proof_bytes_try_from "0g" = Err (InvalidByte 1 "g") /\
  proof_bytes_try_from (proof_bytes_into_string (ProofBytes.Some [xab])) =
    Ok (ProofBytes.Some [xab]).
Proof.
  assert (H : ProofBytes.Some [xab] <> ProofBytes.Some []) by discriminate.
  destruct (proof_bytes_text_roundtrip (ProofBytes.Some [xab]) H)
    as (_ & _ & _ & _ & Hbad & _ & Hrt).
  split; [exact H|]. split; [|exact Hrt].
  destruct (Hbad "0g"%string) as [e He].
  { right. exists "g"%char. split; [right; left; reflexivity | reflexivity]. }
  rewrite He. f_equal. cbn in He. congruence.
Defined.

(** ** JSON *)

Section ProverResultJsonProofs.
Variable context_extension_to_json : ContextExtension -> json.
Variable context_extension_of_json : json -> result ContextExtension de_error.

(** C4. [proof_as_string_or_struct] accepts a bare string, read as a proof
    (hex-decoded, then [ProofBytes::from]) with the empty extension, or
    failing with the decode error and the text; accepts an object, read
    field by field from [{proofBytes, extension}]; and refuses a number,
    an array, a boolean and [null]. *)
Theorem proof_as_string_or_struct_shapes :
  (forall s,
     proof_as_string_or_struct context_extension_of_json (JString s) =
       match decode s with
       | Ok bs => Ok {| proof := proof_bytes_from bs; extension := ContextExtension_empty |}
       | Err e => Err (DeCustomProofString e s)
       end) /\
  (forall fields,
     proof_as_string_or_struct context_extension_of_json (JObject fields) =
       prover_result_deserialize_map context_extension_of_json fields) /\
  (forall n, exists e, proof_as_string_or_struct context_extension_of_json (JNumber n) = Err e) /\
  (forall xs, exists e, proof_as_string_or_struct context_extension_of_json (JArray xs) = Err e) /\
  (forall b, exists e, proof_as_string_or_struct context_extension_of_json (JBool b) = Err e) /\
  (exists e, proof_as_string_or_struct context_extension_of_json JNull = Err e).
Proof.
  split.
  { intros s. cbn. unfold prover_result_from_str. destruct (decode s); reflexivity. }
  split; [reflexivity|].
  split; [intros n; eexists; reflexivity|].
  split; [intros xs; eexists; reflexivity|].
  split; [intros b; eexists; reflexivity|].
  eexists; reflexivity.
Qed.

(** C10. [Serialize for ProverResult] always emits the object
    [{proofBytes, extension}] (the proof as its text), never a bare string. *)
Theorem prover_result_serialize_object : forall pr,
  prover_result_serialize context_extension_to_json pr =
    JObject [("proofBytes"%string, JString (proof_bytes_into_string pr.(proof)));
             ("extension"%string, context_extension_to_json pr.(extension))] /\
  (forall s, prover_result_serialize context_extension_to_json pr <> JString s).
Proof.
  intros pr. split; [reflexivity|]. intros s; discriminate.
Qed.

End ProverResultJsonProofs.

(** The regression vector of [parse_proof_explorer_api]: a bare string of
    112 hex digits is read as a 56-byte proof with the empty extension. *)
Example parse_proof_explorer_api :
  forall ext_of_json : json -> result ContextExtension de_error,
  match proof_as_string_or_struct ext_of_json
          (JString "736d882bbfa1767cef64e718eb74f76b96891fb8ad4e8fdd987ec4550b39d7cda0c285f8346e8f842acbae0b3d8e2b52d039cf1dacefc51c") with
  | Ok pr => List.length (proof_bytes_into_vec pr.(proof)) = 56 /\
             pr.(extension) = ContextExtension_empty
  | Err _ => False
  end.
Proof. intros ext_of_json. vm_compute. split; reflexivity. Qed.

(** * Further properties of the code *)

(** ** Verification equation of [compute_commitment] *)

Section DlogVerification.
Context {G : DlogGroup}.

Hypothesis mul_assoc :
  forall a b c : EcPoint, ec_mul (ec_mul a b) c = ec_mul a (ec_mul b c).
Hypothesis mul_inverse_r : forall a : EcPoint, ec_mul a (inverse a) = identity.
Hypothesis mul_inverse_l : forall a : EcPoint, ec_mul (inverse a) a = identity.
Hypothesis mul_identity_r : forall a : EcPoint, ec_mul a identity = a.

(** [compute_commitment(h, e, z)] is the one point [a] with
    [g^z = a * h^e], the equation of its doc comment. *)
Theorem compute_commitment_iff : forall h challenge z a,
  compute_commitment h challenge z = a <->
  exponentiate generator z = ec_mul a (exponentiate h (challenge_into_scalar challenge)).
Proof.
  intros h challenge z a. unfold compute_commitment. split.
  - intros <-. rewrite mul_assoc, mul_inverse_l, mul_identity_r. reflexivity.
  - intros ->. rewrite mul_assoc, mul_inverse_r, mul_identity_r. reflexivity.
Qed.

End DlogVerification.

Lemma Z2Group_mul_inverse_l : forall a : @EcPoint Z2Group, ec_mul (inverse a) a = identity.
Proof. intros []; reflexivity. Qed.

Lemma compute_commitment_iff_witness :
  @compute_commitment Z2Group true 3 1 = false <->
  exponentiate generator 1 = ec_mul false (exponentiate true (challenge_into_scalar 3)).
Proof.
  exact (@compute_commitment_iff Z2Group Z2Group_mul_assoc Z2Group_mul_inverse_r
           Z2Group_mul_inverse_l Z2Group_mul_identity_r true 3 1 false).
Defined.

(** ** [ProtocolVersion] *)

(** [scorex_parse] reads back what [scorex_serialize] writes, leaving the
    following bytes unread. *)
Theorem protocol_version_roundtrip : forall v rest,
  scorex_parse (scorex_serialize v ++ rest) = Ok (v, rest).
Proof. intros [a b c] rest. reflexivity. Qed.

(** A stream of fewer than three bytes is refused with an end-of-stream
    error. *)
Theorem protocol_version_parse_short : forall r,
  (List.length r < 3)%nat -> scorex_parse r = Err ScorexIo_UnexpectedEof.
Proof.
  intros [|a [|b [|c r]]] H; try reflexivity. cbn in H. lia.
Qed.

Lemma protocol_version_parse_short_witness :
  (List.length [x01; x0e] < 3)%nat /\ scorex_parse [x01; x0e] = Err ScorexIo_UnexpectedEof.
Proof.
  assert (H : (List.length [x01; x0e] < 3)%nat) by (cbn; lia).
  split; [exact H | exact (protocol_version_parse_short [x01; x0e] H)].
Defined.

(** ** Canonical binary form *)

Lemma u8_to_N_byte : forall b, u8 (Byte.to_N b) = b.
Proof.
  intros b. unfold u8.
  rewrite N.mod_small by (pose proof (Byte.to_N_bounded b); lia).
  rewrite Byte.of_to_N. reflexivity.
Qed.

Lemma put_u16_get : forall hi lo,
  put_u16 (Byte.to_N hi * 256 + Byte.to_N lo)%N = [hi; lo].
Proof.
  intros hi lo. unfold put_u16.
  pose proof (Byte.to_N_bounded hi). pose proof (Byte.to_N_bounded lo).
  assert (Hd : ((Byte.to_N hi * 256 + Byte.to_N lo) / 256 = Byte.to_N hi)%N).
  { rewrite N.div_add_l by discriminate.
    rewrite N.div_small by lia. lia. }
  assert (Hm : ((Byte.to_N hi * 256 + Byte.to_N lo) mod 256 = Byte.to_N lo)%N).
  { rewrite N.add_comm, N.Div0.mod_add. apply N.mod_small. lia. }
  rewrite Hd. unfold u8 at 2. rewrite Hm, Byte.of_to_N, u8_to_N_byte. reflexivity.
Qed.

(** Every stream that [sigma_parse] accepts is the serialization of the
    parsed value followed by the unread bytes: the binary form is canonical. *)
Theorem sigma_parse_canonical : forall r p rest,
  sigma_parse r = Ok (p, rest) -> r = sigma_serialize p ++ rest.
Proof.
  intros [|hi [|lo r1]] p rest H; try discriminate.
  unfold sigma_parse in H. cbn [get_u16] in H.
  destruct (Byte.to_N hi * 256 + Byte.to_N lo =? 0)%N eqn:E.
  - injection H as <- <-. apply N.eqb_eq in E.
    change (hi :: lo :: r1) with ([hi; lo] ++ r1).
    rewrite <- (put_u16_get hi lo), E. reflexivity.
  - rewrite read_exact_spec in H.
    destruct (List.length r1 <? _)%nat eqn:L; [discriminate|].
    injection H as <- <-. apply Nat.ltb_ge in L.
    pose proof (Byte.to_N_bounded hi). pose proof (Byte.to_N_bounded lo).
    cbn [sigma_serialize].
    assert (Hu : as_u16 (List.length (firstn (N.to_nat (Byte.to_N hi * 256 + Byte.to_N lo)) r1))
                 = (Byte.to_N hi * 256 + Byte.to_N lo)%N).
    { rewrite length_firstn, Nat.min_l by exact L. unfold as_u16.
      rewrite N2Nat.id. apply N.mod_small. lia. }
    rewrite Hu, put_u16_get, <- app_assoc, firstn_skipn. reflexivity.
Qed.

Lemma sigma_parse_canonical_witness :
  sigma_parse [x00; x02; xaa; xbb; xcc] = Ok (ProofBytes.Some [xaa; xbb], [xcc]) /\
  [x00; x02; xaa; xbb; xcc] = sigma_serialize (ProofBytes.Some [xaa; xbb]) ++ [xcc].
Proof.
  assert (H : sigma_parse [x00; x02; xaa; xbb; xcc] = Ok (ProofBytes.Some [xaa; xbb], [xcc]))
    by reflexivity.
  split; [exact H | exact (sigma_parse_canonical _ _ _ H)].
Defined.

(** ** Legacy string shape and JSON round trip *)

Lemma proof_bytes_try_from_into_string : forall p,
  p <> ProofBytes.Some [] -> proof_bytes_try_from (proof_bytes_into_string p) = Ok p.
Proof.
  intros [|[|b bs]] Hp; [reflexivity | congruence|].
  unfold proof_bytes_try_from, proof_bytes_into_string.
  rewrite decode_encode_lower. reflexivity.
Qed.

(** [ProverResult::from_str] reads the text of any proof other than
    [Some(vec![])] back as that proof with the empty extension. *)
Theorem prover_result_from_str_into_string : forall p,
  p <> ProofBytes.Some [] ->
  prover_result_from_str (proof_bytes_into_string p) =
    Ok {| proof := p; extension := ContextExtension_empty |}.
Proof.
  intros p Hp. pose proof (proof_bytes_try_from_into_string p Hp) as H.
  unfold proof_bytes_try_from in H. unfold prover_result_from_str.
  destruct (decode (proof_bytes_into_string p)); [|discriminate].
  injection H as ->. reflexivity.
Qed.

Lemma prover_result_from_str_into_string_witness :
  ProofBytes.Some [x73; x6d] <> ProofBytes.Some [] /\
  prover_result_from_str (proof_bytes_into_string (ProofBytes.Some [x73; x6d])) =
    Ok {| proof := ProofBytes.Some [x73; x6d]; extension := ContextExtension_empty |}.
Proof.
  assert (H : ProofBytes.Some [x73; x6d] <> ProofBytes.Some []) by discriminate.
  split; [exact H | exact (prover_result_from_str_into_string _ H)].
Defined.

(** The JSON object written by [Serialize for ProverResult] is read back by
    [proof_as_string_or_struct], provided the proof is not [Some(vec![])]
    and the extension's own JSON encoding reads back. *)
Theorem prover_result_json_roundtrip :
  forall (context_extension_to_json : ContextExtension -> json)
         (context_extension_of_json : json -> result ContextExtension de_error)
         (pr : ProverResult),
  pr.(proof) <> ProofBytes.Some [] ->
  context_extension_of_json (context_extension_to_json pr.(extension)) = Ok pr.(extension) ->
  proof_as_string_or_struct context_extension_of_json
    (prover_result_serialize context_extension_to_json pr) = Ok pr.
Proof.
  intros to_json of_json [p ext] Hp Hext. cbn in Hp, Hext.
  unfold proof_as_string_or_struct, prover_result_serialize, prover_result_deserialize_map.
  cbn [proof extension].
  set (fields := [("proofBytes"%string, JString (proof_bytes_into_string p));
                  ("extension"%string, to_json ext)]).
  replace (lookup_field "proofBytes" fields) with
    (Some (JString (proof_bytes_into_string p))) by reflexivity.
  replace (lookup_field "extension" fields) with (Some (to_json ext)) by reflexivity.
  rewrite proof_bytes_try_from_into_string by exact Hp.
  rewrite Hext. reflexivity.
Qed.

Lemma prover_result_json_roundtrip_witness :
  let pr := {| proof := ProofBytes.Some [x01]; extension := ContextExtension_empty |} in
  proof_as_string_or_struct (fun _ => Ok ContextExtension_empty)
    (prover_result_serialize (fun _ => JObject []) pr) = Ok pr.
Proof.
  intros pr.
  apply (prover_result_json_roundtrip (fun _ => JObject []) (fun _ => Ok ContextExtension_empty) pr);
    [discriminate | reflexivity].
Defined.

(** ** [SimpleBoxSelector::select] *)

Section SimpleBoxSelectorProofs.
Context {T : Type} `{ErgoBoxAssets T}.
Local Open Scope Z_scope.
Variable sum_tokens : list T -> list (N * Z).
Variable box_value_try_from : Z -> option Z.
Variable token_amount_try_from : Z -> option Z.

Lemma select_input_fold_stop : forall l sel u m,
  u <= 0 -> fold_left select_input l (sel, u, m) = (sel, u, m).
Proof.
  induction l as [|b l IH]; intros sel u m Hu; [reflexivity|].
  cbn [fold_left]. unfold select_input at 2.
  destruct (0 <? u) eqn:E; [apply Z.ltb_lt in E; lia|]. apply IH, Hu.
Qed.

Lemma select_input_fold : forall l sel u m, exists m',
  fold_left select_input l (sel, u, m) =
    (sel ++ taken u l, u - sum_values (taken u l), m').
Proof.
  induction l as [|b l IH]; intros sel u m.
  - exists m. cbn. rewrite app_nil_r, Z.sub_0_r. reflexivity.
  - cbn [fold_left taken]. unfold select_input at 2.
    destruct (0 <? u) eqn:E.
    + edestruct IH as [m' ->]. exists m'. cbn [sum_values fold_right].
      rewrite <- app_assoc. cbn [app]. f_equal. f_equal.
      unfold sum_values. lia.
    + exists m. rewrite select_input_fold_stop by (apply Z.ltb_ge in E; exact E).
      cbn. rewrite app_nil_r, Z.sub_0_r. reflexivity.
Qed.

Lemma taken_prefix : forall u l, exists rest, l = taken u l ++ rest.
Proof.
  intros u l. revert u. induction l as [|b l IH]; intros u; [exists []; reflexivity|].
  cbn. destruct (0 <? u).
  - destruct (IH (u - box_value b)) as [rest Hr]. exists rest. cbn. f_equal. exact Hr.
  - exists (b :: l). reflexivity.
Qed.

Lemma taken_removelast : forall u l,
  0 < u -> sum_values (removelast (taken u l)) < u.
Proof.
  intros u l. revert u. induction l as [|b l IH]; intros u Hu; [cbn; lia|].
  cbn [taken]. destruct (0 <? u) eqn:E; [|cbn; lia].
  destruct (taken (u - box_value b) l) as [|b' l'] eqn:Ht; [cbn; lia|].
  assert (Hu' : 0 < u - box_value b).
  { destruct l as [|b0 l0]; [discriminate|].
    cbn in Ht. destruct (0 <? u - box_value b) eqn:E'; [apply Z.ltb_lt in E'; exact E'|discriminate]. }
  specialize (IH _ Hu'). rewrite Ht in IH.
  change (removelast (b :: b' :: l')) with (b :: removelast (b' :: l')).
  cbn [sum_values fold_right]. unfold sum_values in IH. lia.
Qed.

Lemma taken_all : forall u l,
  Forall (fun b => 0 <= box_value b) l -> sum_values l < u -> taken u l = l.
Proof.
  intros u l. revert u. induction l as [|b l IH]; intros u Hnn Hs; [reflexivity|].
  inversion Hnn as [|? ? Hb Hl]; subst.
  assert (Hl0 : 0 <= sum_values l).
  { clear - Hl. induction Hl; cbn; [lia|]. unfold sum_values in *; lia. }
  cbn in Hs |- *. unfold sum_values in *.
  destruct (0 <? u) eqn:E; [|apply Z.ltb_ge in E; lia].
  f_equal. apply IH; [exact Hl | lia].
Qed.

(** What an [Ok] result of [select] is made of. *)
Lemma select_ok_inv : forall inputs target_balance target_tokens sel,
  select sum_tokens box_value_try_from token_amount_try_from
    inputs target_balance target_tokens = Returns (Ok sel) ->
  let unmet := target_balance - sum_values (taken target_balance inputs) in
  boxes sel = taken target_balance inputs /\ unmet <= 0 /\
  ((change_boxes sel = [] /\ unmet = 0) \/
   exists cv toks, box_value_try_from (Z.abs unmet) = Some cv /\
                   change_boxes sel = [{| value := cv; tokens := toks |}]).
Proof.
  intros inputs target_balance target_tokens sel Hs unmet.
  unfold select in Hs.
  destruct (select_input_fold inputs [] target_balance
              (map_collect (map (fun t => (token_id t, amount t)) target_tokens)))
    as [m' Hf].
  rewrite Hf in Hs. cbn [app] in Hs. fold unmet in Hs.
  destruct (0 <? unmet) eqn:E1; [discriminate|]. apply Z.ltb_ge in E1.
  destruct (if negb (is_empty target_tokens) then map_find (fun v => 0 <? v) m' else None)
    as [[id v]|]; [discriminate|].
  destruct ((unmet =? 0) && is_empty m') eqn:E2.
  - injection Hs as <-. apply andb_true_iff in E2 as [E2 _]. apply Z.eqb_eq in E2.
    cbn. auto.
  - destruct (box_value_try_from (Z.abs unmet)) as [cv|] eqn:E3; [|discriminate].
    destruct (if negb (is_empty m')
              then fold_left change_token_step target_tokens (Some (sum_tokens (taken target_balance inputs)))
              else Some (sum_tokens (taken target_balance inputs))) as [ct|]; [|discriminate].
    destruct (tokens_of_map token_amount_try_from ct) as [toks|]; [|discriminate].
    injection Hs as <-. cbn. split; [reflexivity|]. split; [exact E1|].
    right. exists cv, toks. auto.
Qed.

Lemma map_get_insert_same : forall {V : Type} k (v : V) m,
  map_get k (map_insert k v m) = Some v.
Proof.
  intros V k v m. induction m as [|[k' v'] m IH]; cbn; [rewrite N.eqb_refl; reflexivity|].
  destruct (k =? k')%N eqn:E; cbn; [rewrite N.eqb_refl; reflexivity|].
  rewrite E. exact IH.
Qed.

Lemma map_get_insert_other : forall {V : Type} k k' (v : V) m,
  k <> k' -> map_get k (map_insert k' v m) = map_get k m.
Proof.
  intros V k k' v m Hk. induction m as [|[k0 v0] m IH]; cbn.
  - apply N.eqb_neq in Hk. rewrite Hk. reflexivity.
  - destruct (k' =? k0)%N eqn:E; cbn.
    + apply N.eqb_eq in E. subst k0. apply N.eqb_neq in Hk. rewrite Hk. reflexivity.
    + destruct (k =? k0)%N; [reflexivity | exact IH].
Qed.

Lemma map_find_some : forall {V : Type} (p : V -> bool) k v m,
  map_get k m = Some v -> p v = true -> exists k' v', map_find p m = Some (k', v').
Proof.
  intros V p k v m Hg Hp. induction m as [|[k0 v0] m IH]; [discriminate|].
  cbn in Hg |- *. destruct (p v0) eqn:E; [eauto|].
  destruct (k =? k0)%N; [injection Hg as <-; congruence | exact (IH Hg)].
Qed.

Lemma map_collect_positive : forall k (kvs : list (N * Z)) m,
  (exists v, map_get k m = Some v /\ 0 < v) \/ In k (map fst kvs) ->
  Forall (fun kv => 0 < snd kv) kvs ->
  exists v, map_get k (fold_left (fun m kv => map_insert (fst kv) (snd kv) m) kvs m) = Some v
            /\ 0 < v.
Proof.
  intros k kvs. induction kvs as [|[k' v'] kvs IH]; intros m Hin Hpos.
  - destruct Hin as [Hm | []]. exact Hm.
  - inversion Hpos as [|? ? Hv Hrest]; subst. cbn in Hv |- *. apply IH; [|exact Hrest].
    destruct (N.eq_dec k k') as [<-|Hne].
    + left. exists v'. rewrite map_get_insert_same. auto.
    + destruct Hin as [[v [Hg Hv0]] | [Hk | Hk]].
      * left. exists v. rewrite map_get_insert_other by exact Hne. auto.
      * cbn in Hk. congruence.
      * right. exact Hk.
Qed.

Lemma select_input_keeps : forall k v (l : list T) sel u m,
  Forall (fun b => Forall (fun t => token_id t <> k) (box_tokens b)) l ->
  map_get k m = Some v ->
  exists sel' u' m', fold_left select_input l (sel, u, m) = (sel', u', m') /\
                     map_get k m' = Some v.
Proof.
  intros k v l. induction l as [|b l IH]; intros sel u m Hl Hm; [exists sel, u, m; auto|].
  apply Forall_cons_iff in Hl as [Hb Hrest]. cbn [fold_left select_input].
  destruct (0 <? u); [|apply IH; assumption].
  apply IH; [exact Hrest|].
  clear - Hb Hm. revert m Hm. induction Hb as [|t ts Ht _ IHt]; intros m Hm; [exact Hm|].
  cbn. apply IHt.
  destruct (0 <? _); [rewrite map_get_insert_other by congruence|]; exact Hm.
Qed.

(** With no input and a positive target, [select] fails with
    [NotEnoughCoins] for the whole target. *)
Theorem select_empty_inputs : forall target_balance target_tokens,
  0 < target_balance ->
  select sum_tokens box_value_try_from token_amount_try_from
    [] target_balance target_tokens = Returns (Err (NotEnoughCoins target_balance)).
Proof.
  intros target_balance target_tokens Hpos. unfold select. cbn [fold_left].
  replace (0 <? target_balance) with true by (symmetry; apply Z.ltb_lt; exact Hpos).
  rewrite Z.abs_eq by lia. reflexivity.
Qed.

(** When the inputs' values (none negative) sum to less than the target,
    [select] takes every input and fails with [NotEnoughCoins] for the
    shortfall. *)
Theorem select_not_enough_coins : forall inputs target_balance target_tokens,
  Forall (fun b => 0 <= box_value b) inputs ->
  sum_values inputs < target_balance ->
  select sum_tokens box_value_try_from token_amount_try_from
    inputs target_balance target_tokens =
    Returns (Err (NotEnoughCoins (target_balance - sum_values inputs))).
Proof.
  intros inputs target_balance target_tokens Hnn Hs. unfold select.
  destruct (select_input_fold inputs [] target_balance
              (map_collect (map (fun t => (token_id t, amount t)) target_tokens)))
    as [m' ->].
  rewrite taken_all by assumption. cbn [app].
  replace (0 <? target_balance - sum_values inputs) with true
    by (symmetry; apply Z.ltb_lt; lia).
  rewrite Z.abs_eq by lia. reflexivity.
Qed.

(** An [Ok] selection for a positive target is the shortest prefix of the
    inputs whose values cover the target: it is a non-empty prefix, covers
    the target, and without its last box it does not. *)
Theorem select_shortest_prefix : forall inputs target_balance target_tokens sel,
  0 < target_balance ->
  select sum_tokens box_value_try_from token_amount_try_from
    inputs target_balance target_tokens = Returns (Ok sel) ->
  (exists rest, inputs = boxes sel ++ rest) /\ boxes sel <> [] /\
  target_balance <= sum_values (boxes sel) /\
  sum_values (removelast (boxes sel)) < target_balance.
Proof.
  intros inputs target_balance target_tokens sel Hpos Hs.
  destruct (select_ok_inv _ _ _ _ Hs) as [Hb [Hu _]]. rewrite Hb.
  split; [apply taken_prefix|]. split.
  - intros Hnil. rewrite Hnil in Hu. cbn in Hu. lia.
  - split; [lia | apply taken_removelast, Hpos].
Qed.

(** Value conservation of an [Ok] selection, when the change value is kept
    by the [BoxValue] conversion: the selected boxes hold the target plus
    the value of the change boxes. *)
Theorem select_value_conservation : forall inputs target_balance target_tokens sel,
  (forall v cv, box_value_try_from v = Some cv -> cv = v) ->
  select sum_tokens box_value_try_from token_amount_try_from
    inputs target_balance target_tokens = Returns (Ok sel) ->
  sum_values (boxes sel) = target_balance + sum_values (change_boxes sel).
Proof.
  intros inputs target_balance target_tokens sel Hbv Hs.
  destruct (select_ok_inv _ _ _ _ Hs) as [Hb [Hu [[Hc H0] | [cv [toks [Hcv Hc]]]]]];
    rewrite Hb, Hc.
  - cbn. lia.
  - apply Hbv in Hcv. cbn. rewrite Z.abs_neq in Hcv by exact Hu. lia.
Qed.

(** [select] never succeeds when a target token (all target amounts
    positive) is carried by none of the inputs. *)
Theorem select_missing_token : forall inputs target_balance target_tokens t0 sel,
  In t0 target_tokens ->
  Forall (fun t => 0 < amount t) target_tokens ->
  Forall (fun b => Forall (fun t => token_id t <> token_id t0) (box_tokens b)) inputs ->
  select sum_tokens box_value_try_from token_amount_try_from
    inputs target_balance target_tokens <> Returns (Ok sel).
Proof.
  intros inputs target_balance target_tokens t0 sel Hin Hpos Hnone Hs.
  destruct (map_collect_positive (token_id t0)
              (map (fun t => (token_id t, amount t)) target_tokens) [])
    as [v [Hg Hv]].
  { right. rewrite map_map. apply in_map, Hin. }
  { rewrite Forall_map. exact Hpos. }
  destruct (select_input_keeps _ _ inputs [] target_balance _ Hnone Hg)
    as [sel' [u' [m' [Hf Hm']]]].
  unfold select, map_collect in Hs. rewrite Hf in Hs.
  destruct (0 <? u'); [discriminate|].
  destruct target_tokens as [|t tt]; [destruct Hin|]. cbn [is_empty negb] in Hs.
  destruct (map_find_some (fun v => 0 <? v) _ _ _ Hm') as [k' [v' Hfind]];
    [apply Z.ltb_lt, Hv|].
  rewrite Hfind in Hs. discriminate.
Qed.

End SimpleBoxSelectorProofs.

Lemma select_empty_inputs_witness :
  (0 < 1000)%Z /\
  select (fun _ : list ErgoBoxAssetsData => []) (fun v => Some v) (fun a => Some a)
    [] 1000 [] = Returns (Err (NotEnoughCoins 1000)).
Proof.
  assert (H : (0 < 1000)%Z) by lia.
  split; [exact H | exact (select_empty_inputs _ _ _ 1000 [] H)].
Defined.

Lemma select_not_enough_coins_witness :
  let inputs := [{| value := 5; tokens := [] |}; {| value := 7; tokens := [] |}] in
  Forall (fun b => (0 <= box_value b)%Z) inputs /\
  (sum_values inputs < 20)%Z /\
  select (fun _ => []) (fun v => Some v) (fun a => Some a) inputs 20 [] =
    Returns (Err (NotEnoughCoins (20 - sum_values inputs))).
Proof.
  intros inputs.
  assert (H1 : Forall (fun b => (0 <= box_value b)%Z) inputs)
    by (repeat constructor; cbn; lia).
  assert (H2 : (sum_values inputs < 20)%Z) by (cbn; lia).
  split; [exact H1|]. split; [exact H2|].
  exact (select_not_enough_coins _ _ _ inputs 20 [] H1 H2).
Defined.

Lemma select_shortest_prefix_witness :
  let inputs := [{| value := 5; tokens := [] |}; {| value := 7; tokens := [] |};
                 {| value := 3; tokens := [] |}] in
  let sel := {| boxes := [{| value := 5; tokens := [] |}; {| value := 7; tokens := [] |}];
                change_boxes := [{| value := 2; tokens := [] |}] |} in
  (0 < 10)%Z /\
  select (fun _ => []) (fun v => Some v) (fun a => Some a) inputs 10 [] = Returns (Ok sel) /\
  ((exists rest, inputs = boxes sel ++ rest) /\ boxes sel <> [] /\
   (10 <= sum_values (boxes sel))%Z /\ (sum_values (removelast (boxes sel)) < 10)%Z).
Proof.
  intros inputs sel.
  assert (H1 : (0 < 10)%Z) by lia.
  assert (H2 : select (fun _ => []) (fun v => Some v) (fun a => Some a) inputs 10 [] =
               Returns (Ok sel)) by reflexivity.
  split; [exact H1|]. split; [exact H2|].
  exact (select_shortest_prefix _ _ _ inputs 10 [] sel H1 H2).
Defined.

Lemma select_value_conservation_witness :
  let inputs := [{| value := 5; tokens := [] |}; {| value := 7; tokens := [] |};
                 {| value := 3; tokens := [] |}] in
  let sel := {| boxes := [{| value := 5; tokens := [] |}; {| value := 7; tokens := [] |}];
                change_boxes := [{| value := 2; tokens := [] |}] |} in
  select (fun _ => []) (fun v => Some v) (fun a => Some a) inputs 10 [] = Returns (Ok sel) /\
  sum_values (boxes sel) = (10 + sum_values (change_boxes sel))%Z.
Proof.
  intros inputs sel.
  assert (H1 : forall v cv : Z, Some v = Some cv -> cv = v) by congruence.
  assert (H2 : select (fun _ => []) (fun v => Some v) (fun a => Some a) inputs 10 [] =
               Returns (Ok sel)) by reflexivity.
  split; [exact H2|].
  exact (select_value_conservation _ _ _ inputs 10 [] sel H1 H2).
Defined.

Lemma select_missing_token_witness :
  let t0 := {| token_id := 1; amount := 4 |} in
  let inputs := [{| value := 5; tokens := [{| token_id := 2; amount := 9 |}] |}] in
  let sel := {| boxes := inputs; change_boxes := [] |} in
  In t0 [t0] /\ Forall (fun t => (0 < amount t)%Z) [t0] /\
  Forall (fun b => Forall (fun t => token_id t <> token_id t0) (box_tokens b)) inputs /\
  select (fun _ => []) (fun v => Some v) (fun a => Some a) inputs 3 [t0] <> Returns (Ok sel).
Proof.
  intros t0 inputs sel.
  assert (H1 : In t0 [t0]) by (left; reflexivity).
  assert (H2 : Forall (fun t => (0 < amount t)%Z) [t0]) by (repeat constructor; cbn; lia).
  assert (H3 : Forall (fun b => Forall (fun t => token_id t <> token_id t0) (box_tokens b)) inputs)
    by (repeat constructor; cbn; discriminate).
  split; [exact H1|]. split; [exact H2|]. split; [exact H3|].
  exact (select_missing_token _ _ _ inputs 3 [t0] t0 sel H1 H2 H3).
Defined.
